(** * Fletcher-4 checksum (package fletcher4, checksummer.go)

    A shallow embedding of the streaming Fletcher-4 accumulator and the
    properties its specification states about it.

    - [uint64] values are integers of [Z] with the wrap-around modulo 2^64
      written out at every addition;
    - a [[]byte] is a [list byte];
    - a panic is an explicit outcome carrying the panic message; methods on
      [*digest] pass the accumulator state explicitly, so that a panicking
      call still shows the state it leaves behind. *)

From Equations Require Import Equations.
From Stdlib Require Import String DecimalString.
From Stdlib Require Import ZArith List Arith Lia.
From Stdlib.Strings Require Import Byte.
Import ListNotations.

Local Open Scope Z_scope.

(** ** Machine integers *)

Module U64.

Definition modulus : Z := 2 ^ 64.

(** Conversion to [uint64]: the value modulo 2^64. *)
Definition wrap (z : Z) : Z := z mod modulus.

(** [x + y] on [uint64]. *)
Definition add (x y : Z) : Z := wrap (x + y).

Definition in_range (z : Z) : Prop := 0 <= z < modulus.

End U64.

(** [byte(v)] for an unsigned [v]: the low eight bits. *)
Definition byte_of_Z (v : Z) : byte :=
  match Byte.of_N (Z.to_N (v mod 256)) with
  | Some b => b
  | None => x00
  end.

(** [uint32(b)] / [uint64(b)] for a byte [b]. *)
Definition Z_of_byte (b : byte) : Z := Z.of_N (Byte.to_N b).

(** ** encoding/binary, little endian *)

Module LittleEndian.

(** [binary.LittleEndian.Uint32]: needs [b[3]] to exist, else the bounds
    check panics ([None]). *)
Definition Uint32 (b : list byte) : option Z :=
  match b with
  | b0 :: b1 :: b2 :: b3 :: _ =>
      Some (Z.lor (Z.lor (Z.lor (Z_of_byte b0)
                                (Z.shiftl (Z_of_byte b1) 8))
                         (Z.shiftl (Z_of_byte b2) 16))
                  (Z.shiftl (Z_of_byte b3) 24))
  | _ => None
  end.

(** The eight bytes [binary.LittleEndian.PutUint64] stores for [v]. *)
Definition bytes64 (v : Z) : list byte :=
  [ byte_of_Z v;
    byte_of_Z (Z.shiftr v 8);
    byte_of_Z (Z.shiftr v 16);
    byte_of_Z (Z.shiftr v 24);
    byte_of_Z (Z.shiftr v 32);
    byte_of_Z (Z.shiftr v 40);
    byte_of_Z (Z.shiftr v 48);
    byte_of_Z (Z.shiftr v 56) ].

(** [binary.LittleEndian.PutUint64 b v]: overwrites [b[0..7]] and leaves
    the rest of [b]; needs [b[7]] to exist, else the bounds check panics
    ([None]). *)
Definition PutUint64 (b : list byte) (v : Z) : option (list byte) :=
  if (8 <=? length b)%nat then Some (bytes64 v ++ skipn 8 b) else None.

End LittleEndian.

(** ** The accumulator *)

(** [type digest [4]uint64] *)
Record digest : Type := Digest { d0 : Z; d1 : Z; d2 : Z; d3 : Z }.

(** The type invariant of [[4]uint64]. *)
Definition digest_ok (d : digest) : Prop :=
  U64.in_range (d0 d) /\ U64.in_range (d1 d) /\
  U64.in_range (d2 d) /\ U64.in_range (d3 d).

Definition Size : nat := 32.
Definition BlockSize : nat := 4.

(** A computation that may panic. *)
Inductive outcome (A : Type) : Type :=
| Ok (a : A)
| Panic (msg : string).
Arguments Ok {A} a.
Arguments Panic {A} msg.

(** [p[i:j]] for [i <= j <= len(p)]. *)
Definition slice (p : list byte) (i j : nat) : list byte :=
  firstn (j - i) (skipn i p).

(** [fmt.Sprintf("... %v bytes.", BlockSize)] *)
Definition misaligned_msg : string :=
  ("Write to Fletcher64x4 checksummer must be a multiple of "
     ++ NilEmpty.string_of_uint (Nat.to_uint BlockSize)
     ++ " bytes.")%string.

(** The message of the run-time panic of a failed bounds check. *)
Definition out_of_range : string := "runtime error: index out of range".

(** One pass of the body of the loop of [update], on the word [w]; the
    conversion [uint64(w)] of a [uint32] keeps the value. *)
Definition round (st : digest) (w : Z) : digest :=
  let a := U64.add (d0 st) w in
  let b := U64.add (d1 st) a in
  let c := U64.add (d2 st) b in
  let d := U64.add (d3 st) c in
  Digest a b c d.

(** The loop of [update]: [for i := 0; i < len(p); i += BlockSize]. The
    locals [a, b, c, d] are the fields of [st]. *)
Equations? update_loop (p : list byte) (i : nat) (st : digest) : outcome digest
  by wf (length p - i)%nat lt :=
  update_loop p i st with lt_dec i (length p) := {
    | left _ with LittleEndian.Uint32 (slice p i (i + BlockSize)) := {
        | Some w := update_loop p (i + BlockSize) (round st w);
        | None := Panic out_of_range };
    | right _ := Ok st }.
Proof. unfold BlockSize. lia. Qed.

(** [func update(dig digest, p []byte) digest] *)
Definition update (dig : digest) (p : list byte) : outcome digest :=
  let st := Digest (d0 dig) (d1 dig) (d2 dig) (d3 dig) in
  if negb (length p mod BlockSize =? 0)%nat
  then Panic misaligned_msg
  else update_loop p 0 st.

(** *** Methods on [*digest]

    A method takes the accumulator the receiver points to and either returns
    a value and the accumulator it leaves, or panics with a message, leaving
    the accumulator as it was when the panic was raised. *)

Inductive result (A : Type) : Type :=
| Returns (a : A) (d : digest)
| Panics (msg : string) (d : digest).
Arguments Returns {A} a d.
Arguments Panics {A} msg d.

Definition method (A : Type) : Type := digest -> result A.

Definition ret {A} (a : A) : method A := fun d => Returns a d.

Definition bind {A B} (m : method A) (k : A -> method B) : method B :=
  fun d =>
    match m d with
    | Returns a d' => k a d'
    | Panics msg d' => Panics msg d'
    end.

(** A bounds-checked library call inside a method. *)
Definition checked {A} (o : option A) : method A :=
  fun d =>
    match o with
    | Some a => Returns a d
    | None => Panics out_of_range d
    end.

(** Reading the receiver. *)
Definition load : method digest := fun d => Returns d d.

(** [*d = v] *)
Definition store (v : digest) : method unit := fun _ => Returns tt v.

Declare Scope method_scope.
Delimit Scope method_scope with method.
Notation "x <- m ;; k" := (bind m (fun x => k))
  (at level 61, m at next level, right associativity) : method_scope.
Notation "m ;;; k" := (bind m (fun _ => k))
  (at level 61, right associativity) : method_scope.
Local Open Scope method_scope.

(** The accumulator a method leaves, returning or panicking. *)
Definition state_of {A} (r : result A) : digest :=
  match r with
  | Returns _ d => d
  | Panics _ d => d
  end.

(** [func (d *digest) Reset()] *)
Definition Reset : method unit := store (Digest 0 0 0 0).

(** [func New() Fletcher64x4]: [new(digest)] is the zero value, then
    [d.Reset()]. *)
Definition New : digest := state_of (Reset (Digest 0 0 0 0)).

(** [func (d *digest) Size() int] *)
Definition digest_Size : method nat := ret Size.

(** [func (d *digest) BlockSize() int] *)
Definition digest_BlockSize : method nat := ret BlockSize.

(** The [error] of Go: [nil] is [None]. *)
Definition error : Type := option string.

(** [func (d *digest) Write(p []byte) (n int, err error)]: the panic of
    [update] is raised before the assignment to [*d]. *)
Definition Write (p : list byte) : method (nat * error) :=
  cur <- load ;;
  match update cur p with
  | Ok d' => store d' ;;; ret (length p, None)
  | Panic msg => fun d => Panics msg d
  end.

(** [make([]byte, n)] *)
Definition make (n : nat) : list byte := repeat x00 n.

(** [func (d *digest) Sum(in []byte) []byte] *)
Definition Sum (inb : list byte) : method (list byte) :=
  d <- load ;;
  let add := make 8 in
  add <- checked (LittleEndian.PutUint64 add (d0 d)) ;;
  let ret1 := inb ++ add in
  add <- checked (LittleEndian.PutUint64 add (d1 d)) ;;
  let ret2 := ret1 ++ add in
  add <- checked (LittleEndian.PutUint64 add (d2 d)) ;;
  let ret3 := ret2 ++ add in
  add <- checked (LittleEndian.PutUint64 add (d3 d)) ;;
  let ret4 := ret3 ++ add in
  ret ret4.

(** The digest layout: the four words in order, eight bytes each. *)
Definition digest_bytes (d : digest) : list byte :=
  LittleEndian.bytes64 (d0 d) ++ LittleEndian.bytes64 (d1 d)
    ++ LittleEndian.bytes64 (d2 d) ++ LittleEndian.bytes64 (d3 d).

(** [func (d *digest) Sum64x4() [4]uint64] *)
Definition Sum64x4 : method (Z * Z * Z * Z) :=
  d <- load ;;
  ret (d0 d, d1 d, d2 d, d3 d).

(** A caller that writes the chunks one after the other; a panic ends it. *)
Fixpoint write_all (chunks : list (list byte)) : method unit :=
  match chunks with
  | [] => ret tt
  | p :: rest => Write p ;;; write_all rest
  end.

(** The inputs of the tests of checksummer_test.go. *)

Definition inp1 : list byte := [x01; x02; x03; x04; x05; x06; x07; x08].
Definition inp2 : list byte := [x02; x04; x06; x08].

(** Two inputs of five words each, [1, 0, 6, 0, 1] and [0, 4, 0, 4, 0]. *)
Definition pattern_a : list byte :=
  [x01; x00; x00; x00; x00; x00; x00; x00; x06; x00; x00; x00;
   x00; x00; x00; x00; x01; x00; x00; x00].
Definition pattern_b : list byte :=
  [x00; x00; x00; x00; x04; x00; x00; x00; x00; x00; x00; x00;
   x04; x00; x00; x00; x00; x00; x00; x00].

(** ** The specification's words

    The definitions of this module follow the text of the specification, by
    arithmetic on values; the theorems compare them with the code above. *)

Module Spec.

(** The unsigned little-endian value of a byte string: the first byte is
    the least significant one. *)
Definition le_value (bs : list byte) : Z :=
  fold_right (fun b acc => Z_of_byte b + 256 * acc) 0 bs.

(** The input cut into consecutive non-overlapping groups of 4 bytes, in
    order. *)
Fixpoint blocks (p : list byte) : list (list byte) :=
  match p with
  | b0 :: b1 :: b2 :: b3 :: rest => [b0; b1; b2; b3] :: blocks rest
  | _ => []
  end.

(** Each group decoded as an unsigned 32-bit little-endian integer. *)
Definition words (p : list byte) : list Z := map le_value (blocks p).

(** [a := a + w; b := b + a; c := c + b; d := d + c], each modulo 2^64. *)
Definition cascade (st : digest) (w : Z) : digest :=
  let a := (d0 st + w) mod 2 ^ 64 in
  let b := (d1 st + a) mod 2 ^ 64 in
  let c := (d2 st + b) mod 2 ^ 64 in
  let d := (d3 st + c) mod 2 ^ 64 in
  Digest a b c d.

(** The recurrence applied to a sequence of words, in order. *)
Definition fletcher4 (st : digest) (ws : list Z) : digest :=
  fold_left cascade ws st.

(** A length the accumulator accepts. *)
Definition aligned (p : list byte) : Prop := (length p mod 4 = 0)%nat.

End Spec.

(** ** Weighted sums

    The vocabulary of the closed form of the four words: what the loop of
    [update] has added up after [n] words. *)

Module Closed.

(** The [n]-th triangular number, [1 + 2 + ... + n]. *)
Fixpoint tri (n : nat) : Z :=
  match n with
  | O => 0
  | S m => tri m + Z.of_nat (S m)
  end.

(** The [n]-th tetrahedral number, [tri 1 + tri 2 + ... + tri n]. *)
Fixpoint tet (n : nat) : Z :=
  match n with
  | O => 0
  | S m => tet m + tri (S m)
  end.

(** The sum of the words. *)
Definition sum1 (ws : list Z) : Z := fold_right Z.add 0 ws.

(** Each word weighted by the number of words from it to the end of the
    input, itself included. *)
Fixpoint sum2 (ws : list Z) : Z :=
  match ws with
  | [] => 0
  | w :: rest => Z.of_nat (S (length rest)) * w + sum2 rest
  end.

(** The same with triangular weights. *)
Fixpoint sum3 (ws : list Z) : Z :=
  match ws with
  | [] => 0
  | w :: rest => tri (S (length rest)) * w + sum3 rest
  end.

(** The same with tetrahedral weights. *)
Fixpoint sum4 (ws : list Z) : Z :=
  match ws with
  | [] => 0
  | w :: rest => tet (S (length rest)) * w + sum4 rest
  end.

(** The recurrence of the loop on unbounded integers, without the
    wrap-around. *)
Definition exact (st : digest) (w : Z) : digest :=
  let a := d0 st + w in
  let b := d1 st + a in
  let c := d2 st + b in
  let d := d3 st + c in
  Digest a b c d.

(** The four words reduced modulo 2^64. *)
Definition wrapd (st : digest) : digest :=
  Digest (d0 st mod 2 ^ 64) (d1 st mod 2 ^ 64)
         (d2 st mod 2 ^ 64) (d3 st mod 2 ^ 64).

(** The four words after [ws] from the state [st], before reduction. *)
Definition closed (st : digest) (ws : list Z) : digest :=
  let n := Z.of_nat (length ws) in
  let t := tri (length ws) in
  let u := tet (length ws) in
  Digest (d0 st + sum1 ws)
         (d1 st + n * d0 st + sum2 ws)
         (d2 st + n * d1 st + t * d0 st + sum3 ws)
         (d3 st + n * d2 st + t * d1 st + u * d0 st + sum4 ws).

End Closed.

(** ** The tests of checksummer_test.go *)

Example TestChecksummer1 :
  (Write [x01; x02; x03; x04] ;;; Sum64x4) New
  = Returns (0x4030201, 0x4030201, 0x4030201, 0x4030201)
            (Digest 0x4030201 0x4030201 0x4030201 0x4030201).
Proof. vm_compute. reflexivity. Qed.

Example TestChecksummer2_8 :
  (Write inp1 ;;; Sum64x4) New
  = Returns (0xc0a0806, 0x100d0a07, 0x14100c08, 0x18130e09)
            (Digest 0xc0a0806 0x100d0a07 0x14100c08 0x18130e09).
Proof. vm_compute. reflexivity. Qed.

Example TestChecksummer2_12 :
  (Write inp1 ;;; Write inp2 ;;; Sum64x4) New
  = Returns (0x14100c08, 0x241d160f, 0x382d2217, 0x50403020)
            (Digest 0x14100c08 0x241d160f 0x382d2217 0x50403020).
Proof. vm_compute. reflexivity. Qed.

Example TestChecksummer2_sum :
  List.map Z_of_byte
    (match (Write inp1 ;;; Write inp2 ;;; Sum []) New with
     | Returns s _ => s
     | Panics _ _ => []
     end)
  = [8; 12; 16; 20; 0; 0; 0; 0; 15; 22; 29; 36; 0; 0; 0; 0;
     23; 34; 45; 56; 0; 0; 0; 0; 32; 48; 64; 80; 0; 0; 0; 0].
Proof. vm_compute. reflexivity. Qed.

(** ** Bytes and little-endian values *)

Section Bytes.

Lemma Z_of_byte_range (b : byte) : 0 <= Z_of_byte b < 256.
Proof.
  unfold Z_of_byte. pose proof (Byte.to_N_bounded b) as H. lia.
Qed.

Lemma Z_of_byte_of_Z (v : Z) : Z_of_byte (byte_of_Z v) = v mod 256.
Proof.
  unfold Z_of_byte, byte_of_Z.
  assert (Hr : 0 <= v mod 256 < 256) by (apply Z.mod_pos_bound; lia).
  destruct (Byte.of_N (Z.to_N (v mod 256))) as [b|] eqn:E.
  - apply Byte.to_of_N in E. rewrite E. lia.
  - apply Byte.of_N_None_iff in E. lia.
Qed.

(** Or-ing in a value shifted past the bits of the other adds it. *)
Lemma lor_shiftl_add (a b n : Z) :
  0 <= n -> 0 <= a < 2 ^ n ->
  Z.lor a (Z.shiftl b n) = a + b * 2 ^ n.
Proof.
  intros Hn Ha.
  assert (Hland : Z.land a (Z.shiftl b n) = 0).
  { apply Z.bits_inj'. intros k Hk.
    rewrite Z.land_spec, Z.bits_0.
    destruct (Z.lt_ge_cases k n) as [Hlt | Hge].
    - rewrite (Z.shiftl_spec_low b n k Hlt). apply Bool.andb_false_r.
    - rewrite <- (Z.mod_small a (2 ^ n)) by lia.
      rewrite Z.mod_pow2_bits_high by lia. reflexivity. }
  rewrite <- Z.lxor_lor by exact Hland.
  rewrite <- Z.add_nocarry_lxor by exact Hland.
  rewrite Z.shiftl_mul_pow2 by lia. reflexivity.
Qed.

(** [Uint32] computes the little-endian value of the first four bytes. *)
Lemma Uint32_le_value (b0 b1 b2 b3 : byte) (rest : list byte) :
  LittleEndian.Uint32 (b0 :: b1 :: b2 :: b3 :: rest)
  = Some (Spec.le_value [b0; b1; b2; b3]).
Proof.
  unfold LittleEndian.Uint32, Spec.le_value. cbn [fold_right].
  pose proof (Z_of_byte_range b0). pose proof (Z_of_byte_range b1).
  pose proof (Z_of_byte_range b2). pose proof (Z_of_byte_range b3).
  rewrite (lor_shiftl_add _ _ 8) by lia.
  rewrite (lor_shiftl_add _ _ 16) by lia.
  rewrite (lor_shiftl_add _ _ 24) by lia.
  f_equal. lia.
Qed.

Lemma le_value_word_range (b0 b1 b2 b3 : byte) :
  0 <= Spec.le_value [b0; b1; b2; b3] < 2 ^ 32.
Proof.
  unfold Spec.le_value. cbn [fold_right].
  pose proof (Z_of_byte_range b0). pose proof (Z_of_byte_range b1).
  pose proof (Z_of_byte_range b2). pose proof (Z_of_byte_range b3).
  lia.
Qed.

Lemma bytes64_length (v : Z) : length (LittleEndian.bytes64 v) = 8%nat.
Proof. reflexivity. Qed.

(** The bytes [PutUint64] stores decode, little-endian, to the value. *)
Lemma le_value_bytes64 (v : Z) :
  Spec.le_value (LittleEndian.bytes64 v) = v mod 2 ^ 64.
Proof.
  unfold LittleEndian.bytes64, Spec.le_value. cbn [fold_right].
  rewrite !Z_of_byte_of_Z, !Z.shiftr_div_pow2 by lia.
  change (2 ^ 64) with (256 * (256 * (256 * (256 * (256 * (256 * (256 * 256))))))).
  rewrite !Z.rem_mul_r by lia.
  rewrite !Z.div_div by lia.
  change (2 ^ 8) with 256.
  change (2 ^ 16) with (256 * 256).
  change (2 ^ 24) with (256 * 256 * 256).
  change (2 ^ 32) with (256 * 256 * 256 * 256).
  change (2 ^ 40) with (256 * 256 * 256 * 256 * 256).
  change (2 ^ 48) with (256 * 256 * 256 * 256 * 256 * 256).
  change (2 ^ 56) with (256 * 256 * 256 * 256 * 256 * 256 * 256).
  rewrite Z.mul_0_r, Z.add_0_r. reflexivity.
Qed.

Lemma le_value_bytes64_in_range (v : Z) :
  U64.in_range v -> Spec.le_value (LittleEndian.bytes64 v) = v.
Proof.
  intros Hv. rewrite le_value_bytes64. apply Z.mod_small. exact Hv.
Qed.

End Bytes.

(** ** The loop of [update] *)

Section Loop.

Lemma update_loop_step (p : list byte) (i : nat) (st : digest) :
  update_loop p i st =
  if lt_dec i (length p) then
    match LittleEndian.Uint32 (slice p i (i + BlockSize)) with
    | Some w => update_loop p (i + BlockSize) (round st w)
    | None => Panic out_of_range
    end
  else Ok st.
Proof.
  simp update_loop.
  destruct (lt_dec i (length p)); simpl; [ | reflexivity ].
  destruct (LittleEndian.Uint32 (slice p i (i + BlockSize))); reflexivity.
Qed.

Lemma round_cascade (st : digest) (w : Z) : round st w = Spec.cascade st w.
Proof. reflexivity. Qed.

Lemma slice_word (pre rest : list byte) (b0 b1 b2 b3 : byte) :
  slice (pre ++ b0 :: b1 :: b2 :: b3 :: rest)
        (length pre) (length pre + BlockSize)
  = [b0; b1; b2; b3].
Proof.
  unfold slice, BlockSize.
  replace (length pre + 4 - length pre)%nat with 4%nat by lia.
  rewrite skipn_app, skipn_all, Nat.sub_diag. reflexivity.
Qed.

Lemma aligned_blocks (p : list byte) :
  Spec.aligned p -> exists n, length p = (4 * n)%nat.
Proof.
  unfold Spec.aligned. intros H. exists (length p / 4)%nat.
  pose proof (Nat.div_mod_eq (length p) 4). lia.
Qed.

Lemma blocks_aligned (p : list byte) (n : nat) :
  length p = (4 * n)%nat -> Spec.aligned p.
Proof.
  unfold Spec.aligned. intros ->.
  rewrite Nat.mul_comm. apply Nat.Div0.mod_mul.
Qed.

(** From index [len(pre)] on, the loop folds the recurrence over the words
    of what is left of the input. *)
Lemma update_loop_from (n : nat) :
  forall (suf pre : list byte) (st : digest),
    length suf = (4 * n)%nat ->
    update_loop (pre ++ suf) (length pre) st
    = Ok (Spec.fletcher4 st (Spec.words suf)).
Proof.
  induction n as [| n IH]; intros suf pre st Hlen.
  - destruct suf; [ | discriminate ].
    rewrite update_loop_step, app_nil_r.
    destruct (lt_dec (length pre) (length pre)); [ lia | reflexivity ].
  - destruct suf as [| b0 [| b1 [| b2 [| b3 rest]]]]; simpl in Hlen; try lia.
    rewrite update_loop_step.
    destruct (lt_dec (length pre) (length (pre ++ b0 :: b1 :: b2 :: b3 :: rest)))
      as [_ | Hge]; [ | rewrite length_app in Hge; simpl in Hge; lia ].
    rewrite slice_word, Uint32_le_value, round_cascade.
    replace (length pre + BlockSize)%nat
      with (length (pre ++ [b0; b1; b2; b3]))
      by (rewrite length_app; reflexivity).
    replace (pre ++ b0 :: b1 :: b2 :: b3 :: rest)
      with ((pre ++ [b0; b1; b2; b3]) ++ rest)
      by (rewrite <- app_assoc; reflexivity).
    rewrite IH by lia. reflexivity.
Qed.

Lemma update_loop_aligned (p : list byte) (st : digest) :
  Spec.aligned p ->
  update_loop p 0 st = Ok (Spec.fletcher4 st (Spec.words p)).
Proof.
  intros H. destruct (aligned_blocks p H) as [n Hn].
  exact (update_loop_from n p [] st Hn).
Qed.

Lemma update_aligned (dig : digest) (p : list byte) :
  Spec.aligned p ->
  update dig p = Ok (Spec.fletcher4 dig (Spec.words p)).
Proof.
  intros H. unfold update.
  unfold Spec.aligned in H. change BlockSize with 4%nat. rewrite H. simpl.
  destruct dig; apply update_loop_aligned; exact H.
Qed.

Lemma update_misaligned (dig : digest) (p : list byte) :
  ~ Spec.aligned p -> update dig p = Panic misaligned_msg.
Proof.
  intros H. unfold update, Spec.aligned in *. change BlockSize with 4%nat.
  destruct (Nat.eqb_spec (length p mod 4) 0); [ contradiction | reflexivity ].
Qed.

Lemma aligned_dec (p : list byte) : {Spec.aligned p} + {~ Spec.aligned p}.
Proof. apply Nat.eq_dec. Defined.

End Loop.

(** ** Words of a concatenation *)

Section Words.

Lemma words_app_blocks (n : nat) :
  forall p q : list byte,
    length p = (4 * n)%nat ->
    Spec.words (p ++ q) = Spec.words p ++ Spec.words q.
Proof.
  induction n as [| n IH]; intros p q Hlen.
  - destruct p; [ reflexivity | discriminate ].
  - destruct p as [| b0 [| b1 [| b2 [| b3 rest]]]]; simpl in Hlen; try lia.
    unfold Spec.words in *. cbn [app Spec.blocks map].
    rewrite IH by lia. reflexivity.
Qed.

Lemma words_app (p q : list byte) :
  Spec.aligned p -> Spec.words (p ++ q) = Spec.words p ++ Spec.words q.
Proof.
  intros H. destruct (aligned_blocks p H) as [n Hn].
  exact (words_app_blocks n p q Hn).
Qed.

Lemma aligned_app (p q : list byte) :
  Spec.aligned p -> Spec.aligned q -> Spec.aligned (p ++ q).
Proof.
  intros Hp Hq.
  destruct (aligned_blocks p Hp) as [n Hn].
  destruct (aligned_blocks q Hq) as [m Hm].
  apply (blocks_aligned _ (n + m)). rewrite length_app. lia.
Qed.

Lemma aligned_concat (chunks : list (list byte)) :
  Forall Spec.aligned chunks -> Spec.aligned (concat chunks).
Proof.
  induction 1 as [| p rest Hp _ IH]; simpl.
  - reflexivity.
  - apply aligned_app; assumption.
Qed.

Lemma fletcher4_app (st : digest) (ws vs : list Z) :
  Spec.fletcher4 st (ws ++ vs) = Spec.fletcher4 (Spec.fletcher4 st ws) vs.
Proof. apply fold_left_app. Qed.

(** The groups of an accepted input are its bytes, all of them, in order. *)
Lemma concat_blocks (n : nat) :
  forall p : list byte,
    length p = (4 * n)%nat -> concat (Spec.blocks p) = p.
Proof.
  induction n as [| n IH]; intros p Hlen.
  - destruct p; [ reflexivity | discriminate ].
  - destruct p as [| b0 [| b1 [| b2 [| b3 rest]]]]; simpl in Hlen; try lia.
    cbn [Spec.blocks concat app]. rewrite IH by lia. reflexivity.
Qed.

Lemma blocks_length_upto (n : nat) :
  forall p : list byte,
    (length p <= n)%nat ->
    Forall (fun blk => length blk = 4%nat) (Spec.blocks p).
Proof.
  induction n as [| n IH]; intros p Hlen;
    destruct p as [| b0 [| b1 [| b2 [| b3 rest]]]];
    simpl in Hlen; try lia; constructor.
  - reflexivity.
  - apply IH. lia.
Qed.

Lemma blocks_length (p : list byte) :
  Forall (fun blk => length blk = 4%nat) (Spec.blocks p).
Proof. exact (blocks_length_upto (length p) p (Nat.le_refl _)). Qed.

(** Every word of the input is counted: one per four bytes. *)
Lemma words_length (n : nat) :
  forall p : list byte,
    length p = (4 * n)%nat -> length (Spec.words p) = n.
Proof.
  induction n as [| n IH]; intros p Hlen.
  - destruct p; [ reflexivity | discriminate ].
  - destruct p as [| b0 [| b1 [| b2 [| b3 rest]]]]; simpl in Hlen; try lia.
    unfold Spec.words in *. cbn [Spec.blocks map length].
    rewrite IH by lia. reflexivity.
Qed.

End Words.

(** ** The type invariant *)

Section Invariant.

Lemma New_zero : New = Digest 0 0 0 0.
Proof. reflexivity. Qed.

Lemma New_ok : digest_ok New.
Proof. repeat split; unfold U64.modulus; simpl; lia. Qed.

Lemma cascade_ok (st : digest) (w : Z) : digest_ok (Spec.cascade st w).
Proof.
  unfold digest_ok, U64.in_range, U64.modulus, Spec.cascade. simpl.
  repeat split; apply Z.mod_pos_bound; lia.
Qed.

Lemma fletcher4_ok (ws : list Z) :
  forall st, digest_ok st -> digest_ok (Spec.fletcher4 st ws).
Proof.
  unfold Spec.fletcher4.
  induction ws as [| w ws IH]; intros st Hst; simpl.
  - exact Hst.
  - apply IH, cascade_ok.
Qed.

End Invariant.

(** ** The methods *)

Section Methods.

Lemma Write_aligned (d : digest) (p : list byte) :
  Spec.aligned p ->
  Write p d
  = Returns (length p, None) (Spec.fletcher4 d (Spec.words p)).
Proof.
  intros H. unfold Write, bind, load.
  rewrite (update_aligned d p H). reflexivity.
Qed.

Lemma Write_misaligned (d : digest) (p : list byte) :
  ~ Spec.aligned p -> Write p d = Panics misaligned_msg d.
Proof.
  intros H. unfold Write, bind, load.
  rewrite (update_misaligned d p H). reflexivity.
Qed.

Lemma Write_ok (d : digest) (p : list byte) :
  digest_ok d -> digest_ok (state_of (Write p d)).
Proof.
  intros Hd. destruct (aligned_dec p) as [H | H].
  - rewrite (Write_aligned d p H). simpl. apply fletcher4_ok, Hd.
  - rewrite (Write_misaligned d p H). exact Hd.
Qed.

(** Aligned chunks written one after the other fold the recurrence over
    the words of their concatenation. *)
Lemma write_all_aligned (chunks : list (list byte)) :
  Forall Spec.aligned chunks ->
  forall d : digest,
    write_all chunks d
    = Returns tt (Spec.fletcher4 d (Spec.words (concat chunks))).
Proof.
  induction 1 as [| p rest Hp Hrest IH]; intros d.
  - reflexivity.
  - cbn [write_all concat]. unfold bind at 1.
    rewrite (Write_aligned d p Hp), IH.
    rewrite (words_app p (concat rest) Hp), fletcher4_app. reflexivity.
Qed.

Lemma write_all_ok (chunks : list (list byte)) :
  forall d : digest, digest_ok d -> digest_ok (state_of (write_all chunks d)).
Proof.
  induction chunks as [| p rest IH]; intros d Hd.
  - exact Hd.
  - cbn [write_all]. unfold bind at 1.
    pose proof (Write_ok d p Hd) as Hw.
    destruct (Write p d) as [r d' | msg d']; simpl in Hw.
    + apply IH, Hw.
    + exact Hw.
Qed.

Lemma PutUint64_full (b : list byte) (v : Z) :
  length b = 8%nat ->
  LittleEndian.PutUint64 b v = Some (LittleEndian.bytes64 v).
Proof.
  intros H. unfold LittleEndian.PutUint64.
  rewrite H, skipn_all2, app_nil_r by lia. reflexivity.
Qed.

Lemma Sum_appends (d : digest) (inb : list byte) :
  Sum inb d = Returns (inb ++ digest_bytes d) d.
Proof.
  unfold Sum, digest_bytes, bind, load, checked, ret.
  repeat (rewrite PutUint64_full by reflexivity; cbv beta iota).
  rewrite <- !app_assoc. reflexivity.
Qed.

Lemma digest_bytes_length (d : digest) : length (digest_bytes d) = Size.
Proof. reflexivity. Qed.

End Methods.

(** ** The properties of the specification *)

Section Claims.

(** C1: for every input whose length is a multiple of 4, [update] and
    [Write] take the input as its consecutive non-overlapping 4-byte groups
    in order (the groups concatenate back to the input, each is 4 bytes
    long), decode each group as an unsigned little-endian 32-bit value, and
    apply [a := a + w; b := b + a; c := c + b; d := d + c] modulo 2^64 for
    each word in turn; overflow wraps and raises nothing. *)
Theorem write_folds_cascade_over_words (d : digest) (p : list byte) :
  (length p mod 4 = 0)%nat ->
  concat (Spec.blocks p) = p /\
  Forall (fun blk => length blk = 4%nat) (Spec.blocks p) /\
  update d p
  = Ok (fold_left Spec.cascade (map Spec.le_value (Spec.blocks p)) d) /\
  Write p d
  = Returns (length p, None)
            (fold_left Spec.cascade (map Spec.le_value (Spec.blocks p)) d).
Proof.
  intros H.
  destruct (aligned_blocks p H) as [n Hn].
  split; [ exact (concat_blocks n p Hn) | ].
  split; [ apply blocks_length | ].
  split; [ exact (update_aligned d p H) | exact (Write_aligned d p H) ].
Qed.

Lemma write_folds_cascade_over_words_witness :
  (length inp1 mod 4 = 0)%nat /\
  Write inp1 (Digest (2 ^ 64 - 1) 0 0 0)
  = Returns (8%nat, None)
            (Digest 0xc0a0805 0x100d0a05 0x14100c05 0x18130e05).
Proof.
  split; [ reflexivity | ].
  destruct (write_folds_cascade_over_words
              (Digest (2 ^ 64 - 1) 0 0 0) inp1 eq_refl)
    as (_ & _ & _ & Hw).
  rewrite Hw. vm_compute. reflexivity.
Defined.

(** C2: writing an input of aligned length in one call leaves the same
    state as writing it as any sequence of chunks of aligned lengths that
    concatenate to it. *)
Theorem split_write_equivalence (d : digest) (chunks : list (list byte)) :
  Forall (fun c => (length c mod 4 = 0)%nat) chunks ->
  (length (concat chunks) mod 4 = 0)%nat /\
  exists d' : digest,
    Write (concat chunks) d = Returns (length (concat chunks), None) d' /\
    write_all chunks d = Returns tt d'.
Proof.
  intros H.
  split; [ exact (aligned_concat chunks H) | ].
  exists (Spec.fletcher4 d (Spec.words (concat chunks))). split.
  - apply Write_aligned, aligned_concat, H.
  - apply write_all_aligned, H.
Qed.

Lemma split_write_equivalence_witness :
  Forall (fun c => (length c mod 4 = 0)%nat)
         [[x01; x02; x03; x04]; [x05; x06; x07; x08]] /\
  exists d' : digest,
    Write [x01; x02; x03; x04; x05; x06; x07; x08] New
    = Returns (8%nat, None) d' /\
    write_all [[x01; x02; x03; x04]; [x05; x06; x07; x08]] New
    = Returns tt d'.
Proof.
  assert (H : Forall (fun c => (length c mod 4 = 0)%nat)
                     [[x01; x02; x03; x04]; [x05; x06; x07; x08]])
    by (repeat constructor).
  split; [ exact H | ].
  exact (proj2 (split_write_equivalence New _ H)).
Defined.

(** C3: [Write] panics exactly when the length of the input is not a
    multiple of 4, with a message that names the block size of 4 bytes;
    on every other input, the empty one included, it returns the length of
    the input and a nil error. *)
Theorem write_panics_iff_misaligned (d : digest) (p : list byte) :
  ((exists msg d', Write p d = Panics msg d')
   <-> (length p mod 4 <> 0)%nat) /\
  ((length p mod 4 <> 0)%nat ->
   exists d',
     Write p d
     = Panics "Write to Fletcher64x4 checksummer must be a multiple of 4 bytes."
              d') /\
  ((length p mod 4 = 0)%nat ->
   exists d', Write p d = Returns (length p, None) d').
Proof.
  assert (Hbad : (length p mod 4 <> 0)%nat ->
                 Write p d = Panics misaligned_msg d)
    by exact (Write_misaligned d p).
  assert (Hgood : (length p mod 4 = 0)%nat ->
                  Write p d
                  = Returns (length p, None)
                            (Spec.fletcher4 d (Spec.words p)))
    by exact (Write_aligned d p).
  split; [ split | split ].
  - intros (msg & d' & Hw) Hal. rewrite (Hgood Hal) in Hw. discriminate.
  - intros Hmis. exists misaligned_msg, d. exact (Hbad Hmis).
  - intros Hmis. exists d. exact (Hbad Hmis).
  - intros Hal. eexists. exact (Hgood Hal).
Qed.

Lemma write_panics_iff_misaligned_witness :
  (exists d',
      Write [x01; x02; x03] New
      = Panics "Write to Fletcher64x4 checksummer must be a multiple of 4 bytes."
               d') /\
  (exists d', Write [] New = Returns (0%nat, None) d').
Proof.
  split.
  - apply (proj1 (proj2 (write_panics_iff_misaligned New [x01; x02; x03]))).
    simpl. lia.
  - apply (proj2 (proj2 (write_panics_iff_misaligned New []))).
    reflexivity.
Defined.

(** C4: a [Write] of an input whose length is not a multiple of 4 panics
    and leaves the four words of the accumulator as they were. *)
Theorem misaligned_write_keeps_state (d : digest) (p : list byte) :
  (length p mod 4 <> 0)%nat ->
  (exists msg, Write p d = Panics msg d) /\ state_of (Write p d) = d.
Proof.
  intros H. rewrite (Write_misaligned d p H).
  split; [ exists misaligned_msg | ]; reflexivity.
Qed.

Lemma misaligned_write_keeps_state_witness :
  (length [x01; x02; x03; x04; x05] mod 4 <> 0)%nat /\
  state_of (Write [x01; x02; x03; x04; x05] (Digest 1 2 3 4))
  = Digest 1 2 3 4.
Proof.
  assert (H : (length [x01; x02; x03; x04; x05] mod 4 <> 0)%nat)
    by (simpl; lia).
  split; [ exact H | ].
  exact (proj2 (misaligned_write_keeps_state (Digest 1 2 3 4) _ H)).
Defined.

(** C5: [Sum] returns its input buffer followed by exactly 32 bytes, the
    8-byte little-endian serializations of [a], [b], [c], [d] in this
    order; the input buffer is a prefix of the result and the accumulator
    is left as it was; so calling [Sum] again on the result appends the
    same 32 bytes once more. *)
Theorem sum_appends_le_digest (d : digest) (inb : list byte) :
  digest_ok d ->
  exists ba bb bc bd : list byte,
    (length ba = 8%nat /\ Spec.le_value ba = d0 d) /\
    (length bb = 8%nat /\ Spec.le_value bb = d1 d) /\
    (length bc = 8%nat /\ Spec.le_value bc = d2 d) /\
    (length bd = 8%nat /\ Spec.le_value bd = d3 d) /\
    length (ba ++ bb ++ bc ++ bd) = 32%nat /\
    Sum inb d = Returns (inb ++ ba ++ bb ++ bc ++ bd) d /\
    Sum [] d = Returns (ba ++ bb ++ bc ++ bd) d /\
    (s <- Sum inb ;; Sum s) d
    = Returns (inb ++ (ba ++ bb ++ bc ++ bd) ++ (ba ++ bb ++ bc ++ bd)) d.
Proof.
  intros (Ha & Hb & Hc & Hd).
  exists (LittleEndian.bytes64 (d0 d)), (LittleEndian.bytes64 (d1 d)),
    (LittleEndian.bytes64 (d2 d)), (LittleEndian.bytes64 (d3 d)).
  split; [ split; [ reflexivity | exact (le_value_bytes64_in_range _ Ha) ] | ].
  split; [ split; [ reflexivity | exact (le_value_bytes64_in_range _ Hb) ] | ].
  split; [ split; [ reflexivity | exact (le_value_bytes64_in_range _ Hc) ] | ].
  split; [ split; [ reflexivity | exact (le_value_bytes64_in_range _ Hd) ] | ].
  split; [ reflexivity | ].
  split; [ exact (Sum_appends d inb) | ].
  split; [ exact (Sum_appends d []) | ].
  unfold bind. rewrite Sum_appends, Sum_appends, <- app_assoc.
  reflexivity.
Qed.

Lemma sum_appends_le_digest_witness :
  digest_ok (Digest 0x14100c08 0x241d160f 0x382d2217 0x50403020) /\
  exists ba bb bc bd : list byte,
    (length ba = 8%nat /\ Spec.le_value ba = 0x14100c08) /\
    (length bb = 8%nat /\ Spec.le_value bb = 0x241d160f) /\
    (length bc = 8%nat /\ Spec.le_value bc = 0x382d2217) /\
    (length bd = 8%nat /\ Spec.le_value bd = 0x50403020) /\
    length (ba ++ bb ++ bc ++ bd) = 32%nat /\
    Sum [xff] (Digest 0x14100c08 0x241d160f 0x382d2217 0x50403020)
    = Returns ([xff] ++ ba ++ bb ++ bc ++ bd)
              (Digest 0x14100c08 0x241d160f 0x382d2217 0x50403020) /\
    Sum [] (Digest 0x14100c08 0x241d160f 0x382d2217 0x50403020)
    = Returns (ba ++ bb ++ bc ++ bd)
              (Digest 0x14100c08 0x241d160f 0x382d2217 0x50403020) /\
    (s <- Sum [xff] ;; Sum s)
      (Digest 0x14100c08 0x241d160f 0x382d2217 0x50403020)
    = Returns ([xff] ++ (ba ++ bb ++ bc ++ bd) ++ (ba ++ bb ++ bc ++ bd))
              (Digest 0x14100c08 0x241d160f 0x382d2217 0x50403020).
Proof.
  assert (H : digest_ok (Digest 0x14100c08 0x241d160f 0x382d2217 0x50403020))
    by (unfold digest_ok, U64.in_range, U64.modulus; simpl; lia).
  split; [ exact H | ].
  exact (sum_appends_le_digest _ [xff] H).
Defined.

(** C6: one 4-byte word of little-endian value [V] written to a fresh
    accumulator gives the words [(V, V, V, V)]; the bytes [1, 2, 3, 4] give
    [0x04030201] four times. *)
Theorem single_block_fill (b0 b1 b2 b3 : byte) :
  (Write [b0; b1; b2; b3] ;;; Sum64x4) New
  = Returns (Spec.le_value [b0; b1; b2; b3], Spec.le_value [b0; b1; b2; b3],
             Spec.le_value [b0; b1; b2; b3], Spec.le_value [b0; b1; b2; b3])
            (Digest (Spec.le_value [b0; b1; b2; b3])
                    (Spec.le_value [b0; b1; b2; b3])
                    (Spec.le_value [b0; b1; b2; b3])
                    (Spec.le_value [b0; b1; b2; b3])) /\
  (Write [x01; x02; x03; x04] ;;; Sum64x4) New
  = Returns (0x04030201, 0x04030201, 0x04030201, 0x04030201)
            (Digest 0x04030201 0x04030201 0x04030201 0x04030201).
Proof.
  split; [ | vm_compute; reflexivity ].
  unfold bind at 1.
  rewrite (Write_aligned New [b0; b1; b2; b3]) by reflexivity.
  unfold Spec.words, Spec.fletcher4. cbn [Spec.blocks map fold_left].
  pose proof (le_value_word_range b0 b1 b2 b3) as Hv.
  set (V := Spec.le_value [b0; b1; b2; b3]) in *.
  unfold Spec.cascade, New, Reset, store, state_of. cbn [d0 d1 d2 d3].
  rewrite !Z.add_0_l.
  rewrite !(Z.mod_small V (2 ^ 64)) by lia.
  reflexivity.
Qed.

(** C7: after any sequence of writes, [Reset] sets the state to
    [(0, 0, 0, 0)], the state of a fresh accumulator, and [Sum64x4] then
    returns [(0, 0, 0, 0)]. *)
Theorem reset_discards_history (chunks : list (list byte)) (d : digest) :
  (Reset ;;; Sum64x4) (state_of (write_all chunks d))
  = Returns (0, 0, 0, 0) (Digest 0 0 0 0) /\
  New = Digest 0 0 0 0 /\
  Sum64x4 New = Returns (0, 0, 0, 0) New.
Proof.
  split; [ | split ]; reflexivity.
Qed.

(** C8: two fresh accumulators fed the same bytes, each in chunks of
    aligned lengths, end in the same state, and [Sum] on equal buffers
    returns the same bytes for both. *)
Theorem determinism (chunks1 chunks2 : list (list byte)) (buf : list byte) :
  Forall (fun c => (length c mod 4 = 0)%nat) chunks1 ->
  Forall (fun c => (length c mod 4 = 0)%nat) chunks2 ->
  concat chunks1 = concat chunks2 ->
  exists (d' : digest) (out : list byte),
    write_all chunks1 New = Returns tt d' /\
    write_all chunks2 New = Returns tt d' /\
    (write_all chunks1 ;;; Sum buf) New = Returns out d' /\
    (write_all chunks2 ;;; Sum buf) New = Returns out d'.
Proof.
  intros H1 H2 Heq.
  exists (Spec.fletcher4 New (Spec.words (concat chunks1))).
  exists (buf ++ digest_bytes (Spec.fletcher4 New (Spec.words (concat chunks1)))).
  unfold bind.
  rewrite (write_all_aligned chunks1 H1 New).
  rewrite (write_all_aligned chunks2 H2 New).
  rewrite <- Heq, Sum_appends.
  repeat split.
Qed.

Lemma determinism_witness :
  exists (d' : digest) (out : list byte),
    write_all [inp1; inp2] New = Returns tt d' /\
    write_all [[x01; x02; x03; x04]; [x05; x06; x07; x08; x02; x04; x06; x08]]
              New = Returns tt d' /\
    (write_all [inp1; inp2] ;;; Sum [x2a]) New = Returns out d' /\
    (write_all [[x01; x02; x03; x04]; [x05; x06; x07; x08; x02; x04; x06; x08]]
       ;;; Sum [x2a]) New = Returns out d'.
Proof.
  apply (determinism
           [inp1; inp2]
           [[x01; x02; x03; x04]; [x05; x06; x07; x08; x02; x04; x06; x08]]
           [x2a]).
  - repeat constructor.
  - repeat constructor.
  - reflexivity.
Defined.

(** C9: [Size] returns 32 and [BlockSize] returns 4, on every accumulator
    in every state, and neither changes the state. *)
Theorem size_and_block_size_constant (d : digest) :
  digest_Size d = Returns 32%nat d /\ digest_BlockSize d = Returns 4%nat d.
Proof. split; reflexivity. Qed.

(** C10: a [Write] of no bytes does not panic, returns the count 0 and a
    nil error, and leaves the four words of the accumulator unchanged. *)
Theorem empty_write_is_noop (d : digest) :
  Write [] d = Returns (0%nat, None) d.
Proof.
  rewrite (Write_aligned d []) by reflexivity.
  destruct d. reflexivity.
Qed.

End Claims.

(** ** The closed form of the four words *)

Section ClosedForm.

Lemma tri_double (n : nat) : 2 * Closed.tri n = Z.of_nat n * (Z.of_nat n + 1).
Proof.
  induction n as [| n IH].
  - reflexivity.
  - cbn [Closed.tri]. rewrite Nat2Z.inj_succ. lia.
Qed.

Lemma tet_sixfold (n : nat) :
  6 * Closed.tet n = Z.of_nat n * (Z.of_nat n + 1) * (Z.of_nat n + 2).
Proof.
  induction n as [| n IH].
  - reflexivity.
  - pose proof (tri_double (S n)) as Ht.
    cbn [Closed.tet]. rewrite Nat2Z.inj_succ in *. nia.
Qed.

Lemma wrapd_ok (st : digest) : digest_ok (Closed.wrapd st).
Proof.
  unfold digest_ok, U64.in_range, U64.modulus, Closed.wrapd. simpl.
  repeat split; apply Z.mod_pos_bound; lia.
Qed.

Lemma wrapd_of_ok (st : digest) : digest_ok st -> Closed.wrapd st = st.
Proof.
  unfold digest_ok, U64.in_range, U64.modulus, Closed.wrapd.
  intros (Ha & Hb & Hc & Hd). destruct st as [a b c d]. simpl in *.
  rewrite !Z.mod_small by lia. reflexivity.
Qed.

(** A wrapped step is the wrap of an exact step. *)
Lemma cascade_wrapd (st : digest) (w : Z) :
  Spec.cascade (Closed.wrapd st) w = Closed.wrapd (Closed.exact st w).
Proof.
  unfold Spec.cascade, Closed.wrapd, Closed.exact. cbn [d0 d1 d2 d3].
  f_equal;
    repeat (rewrite Zplus_mod_idemp_l || rewrite Zplus_mod_idemp_r
            || rewrite Z.add_assoc);
    reflexivity.
Qed.

Lemma fletcher4_wrapd (ws : list Z) :
  forall st : digest,
    Spec.fletcher4 (Closed.wrapd st) ws
    = Closed.wrapd (fold_left Closed.exact ws st).
Proof.
  unfold Spec.fletcher4.
  induction ws as [| w ws IH]; intros st; cbn [fold_left].
  - reflexivity.
  - rewrite cascade_wrapd. apply IH.
Qed.

Lemma exact_closed (ws : list Z) :
  forall st : digest, fold_left Closed.exact ws st = Closed.closed st ws.
Proof.
  induction ws as [| w ws IH]; intros st.
  - destruct st as [a b c d]. unfold Closed.closed. cbn. f_equal; lia.
  - cbn [fold_left]. rewrite IH.
    unfold Closed.closed, Closed.exact.
    cbn [d0 d1 d2 d3 length Closed.sum2 Closed.sum3 Closed.sum4].
    unfold Closed.sum1. cbn [fold_right].
    change (Closed.tet (S (length ws)))
      with (Closed.tet (length ws) + Closed.tri (S (length ws))).
    change (Closed.tri (S (length ws)))
      with (Closed.tri (length ws) + Z.of_nat (S (length ws))).
    rewrite Nat2Z.inj_succ.
    f_equal; ring.
Qed.

(** The state after the words [ws], from a state of [uint64] words. *)
Lemma fletcher4_closed (st : digest) (ws : list Z) :
  digest_ok st ->
  Spec.fletcher4 st ws = Closed.wrapd (Closed.closed st ws).
Proof.
  intros Hst.
  rewrite <- (wrapd_of_ok st Hst) at 1.
  rewrite fletcher4_wrapd, exact_closed. reflexivity.
Qed.

End ClosedForm.

(** ** Arithmetic of the words *)

Section WordFacts.

Lemma Z_of_byte_inj (b c : byte) : Z_of_byte b = Z_of_byte c -> b = c.
Proof.
  unfold Z_of_byte. intros H. apply N2Z.inj in H.
  pose proof (Byte.of_to_N b) as Hb. rewrite H, Byte.of_to_N in Hb.
  congruence.
Qed.

Lemma byte_of_Z_of_byte (b : byte) : byte_of_Z (Z_of_byte b) = b.
Proof.
  apply Z_of_byte_inj. rewrite Z_of_byte_of_Z.
  apply Z.mod_small, Z_of_byte_range.
Qed.

(** Byte strings of one length with one little-endian value are equal. *)
Lemma le_value_inj (bs : list byte) :
  forall cs : list byte,
    length bs = length cs ->
    Spec.le_value bs = Spec.le_value cs -> bs = cs.
Proof.
  induction bs as [| b bs IH]; intros [| c cs] Hlen Hval;
    try discriminate; [ reflexivity | ].
  unfold Spec.le_value in Hval. cbn [fold_right] in Hval.
  fold (Spec.le_value bs) in Hval. fold (Spec.le_value cs) in Hval.
  pose proof (Z_of_byte_range b). pose proof (Z_of_byte_range c).
  assert (Hb : Z_of_byte b = Z_of_byte c) by lia.
  assert (Hr : Spec.le_value bs = Spec.le_value cs) by lia.
  f_equal.
  - exact (Z_of_byte_inj b c Hb).
  - apply IH; [ simpl in Hlen; lia | exact Hr ].
Qed.

Lemma words_of_block (blk : list byte) :
  length blk = 4%nat -> Spec.words blk = [Spec.le_value blk].
Proof.
  destruct blk as [| b0 [| b1 [| b2 [| b3 [| b4 rest]]]]];
    try discriminate. reflexivity.
Qed.

Lemma block_value_range (blk : list byte) :
  length blk = 4%nat -> 0 <= Spec.le_value blk < 2 ^ 32.
Proof.
  destruct blk as [| b0 [| b1 [| b2 [| b3 [| b4 rest]]]]];
    try discriminate. intros _. apply le_value_word_range.
Qed.

Lemma words_range_upto (n : nat) :
  forall p : list byte,
    (length p <= n)%nat ->
    Forall (fun w => 0 <= w < 2 ^ 32) (Spec.words p).
Proof.
  induction n as [| n IH]; intros p Hlen;
    destruct p as [| b0 [| b1 [| b2 [| b3 rest]]]];
    simpl in Hlen; try lia; try (constructor; fail).
  unfold Spec.words. cbn [Spec.blocks map]. constructor.
  - apply le_value_word_range.
  - apply IH. lia.
Qed.

Lemma words_range (p : list byte) :
  Forall (fun w => 0 <= w < 2 ^ 32) (Spec.words p).
Proof. exact (words_range_upto (length p) p (Nat.le_refl _)). Qed.

Lemma sum1_app (xs ys : list Z) :
  Closed.sum1 (xs ++ ys) = Closed.sum1 xs + Closed.sum1 ys.
Proof.
  unfold Closed.sum1. induction xs as [| x xs IH]; cbn [app fold_right].
  - reflexivity.
  - rewrite IH. ring.
Qed.

Lemma sum2_app (xs ys : list Z) :
  Closed.sum2 (xs ++ ys)
  = Closed.sum2 xs + Z.of_nat (length ys) * Closed.sum1 xs + Closed.sum2 ys.
Proof.
  induction xs as [| x xs IH]; cbn [app Closed.sum2].
  - unfold Closed.sum1. cbn [fold_right]. ring.
  - rewrite IH, length_app, !Nat2Z.inj_succ, Nat2Z.inj_add.
    unfold Closed.sum1. cbn [fold_right]. ring.
Qed.

Lemma sum1_bounds (ws : list Z) :
  Forall (fun w => 0 <= w < 2 ^ 32) ws ->
  0 <= Closed.sum1 ws <= Z.of_nat (length ws) * (2 ^ 32 - 1).
Proof.
  unfold Closed.sum1.
  induction 1 as [| w ws Hw _ IH]; cbn [fold_right length].
  - simpl. lia.
  - rewrite Nat2Z.inj_succ. lia.
Qed.

(** Two [uint64] shifts of one value that agree modulo 2^64 are equal. *)
Lemma mod_shift_inj (x u v : Z) :
  0 <= u < 2 ^ 64 -> 0 <= v < 2 ^ 64 ->
  (x + u) mod 2 ^ 64 = (x + v) mod 2 ^ 64 -> u = v.
Proof.
  intros Hu Hv H.
  assert (HM : 0 < 2 ^ 64) by reflexivity.
  set (M := 2 ^ 64) in *.
  pose proof (Z.div_mod (x + u) M ltac:(lia)) as E1.
  pose proof (Z.div_mod (x + v) M ltac:(lia)) as E2.
  rewrite H in E1.
  assert (Hq : (x + u) / M = (x + v) / M) by nia.
  rewrite Hq in E1. lia.
Qed.

(** A common summand cancels in a congruence modulo 2^64. *)
Lemma mod_add_cancel (x s t : Z) :
  (x + s) mod 2 ^ 64 = (x + t) mod 2 ^ 64 <-> s mod 2 ^ 64 = t mod 2 ^ 64.
Proof.
  split; intros H.
  - assert (E : forall y, y mod 2 ^ 64 = ((x + y) mod 2 ^ 64 - x) mod 2 ^ 64).
    { intros y. rewrite Zminus_mod_idemp_l. f_equal. ring. }
    rewrite (E s), (E t), H. reflexivity.
  - rewrite <- (Zplus_mod_idemp_r s), <- (Zplus_mod_idemp_r t), H.
    reflexivity.
Qed.

Lemma mod_shift_inj_at (x u v e1 e2 : Z) :
  0 <= u < 2 ^ 64 -> 0 <= v < 2 ^ 64 ->
  e1 = x + u -> e2 = x + v ->
  e1 mod 2 ^ 64 = e2 mod 2 ^ 64 -> u = v.
Proof. intros Hu Hv -> ->. apply mod_shift_inj; assumption. Qed.

Lemma words_zero_blocks (k : nat) :
  Spec.words (repeat x00 (k * 4)) = repeat 0 k.
Proof.
  induction k as [| k IH].
  - reflexivity.
  - cbn [Nat.mul Nat.add repeat]. unfold Spec.words in *.
    cbn [Spec.blocks map]. rewrite IH. reflexivity.
Qed.

Lemma fletcher4_zero_words (k : nat) :
  Spec.fletcher4 (Digest 0 0 0 0) (repeat 0 k) = Digest 0 0 0 0.
Proof.
  unfold Spec.fletcher4. induction k as [| k IH]; cbn [repeat fold_left].
  - reflexivity.
  - exact IH.
Qed.

Lemma app_same_length {A : Type} (xs : list A) :
  forall ys rs ss : list A,
    length xs = length ys -> xs ++ rs = ys ++ ss -> xs = ys /\ rs = ss.
Proof.
  induction xs as [| x xs IH]; intros [| y ys] rs ss Hlen Heq;
    try discriminate.
  - split; [ reflexivity | exact Heq ].
  - injection Heq as Hx Hrest. injection Hlen as Hlen.
    destruct (IH ys rs ss Hlen Hrest) as [-> ->]. subst. split; reflexivity.
Qed.

End WordFacts.

(** ** Further properties of the code *)

Section Further.

(** The words of three aligned pieces put together. *)
Lemma words_app3 (pre mid post : list byte) :
  Spec.aligned pre -> Spec.aligned mid ->
  Spec.words (pre ++ mid ++ post)
  = Spec.words pre ++ Spec.words mid ++ Spec.words post.
Proof.
  intros Hpre Hmid.
  rewrite (words_app pre _ Hpre), (words_app mid _ Hmid). reflexivity.
Qed.

Lemma block_aligned (blk : list byte) : length blk = 4%nat -> Spec.aligned blk.
Proof. intros H. unfold Spec.aligned. rewrite H. reflexivity. Qed.

(** The state an aligned [Write] leaves, in closed form. *)
Lemma Write_closed (d : digest) (p : list byte) :
  Spec.aligned p -> digest_ok d ->
  state_of (Write p d) = Closed.wrapd (Closed.closed d (Spec.words p)).
Proof.
  intros Hp Hd. rewrite (Write_aligned d p Hp). cbn [state_of].
  apply fletcher4_closed, Hd.
Qed.

(** X1: every state reached from a fresh accumulator by writes, accepted or
    refused, holds four words in the range of [uint64]. *)
Theorem written_states_in_range (chunks : list (list byte)) :
  digest_ok (state_of (write_all chunks New)).
Proof. apply write_all_ok, New_ok. Qed.

(** X2: the closed form of the checksum. After an aligned [Write] of [n]
    words [ws] from the state [(a, b, c, d)], the words are, modulo 2^64,
    [a + sum ws], [b + n a + sum2 ws], [c + n b + T a + sum3 ws] and
    [d + n c + T b + U a + sum4 ws], where a word is weighted in [sum2],
    [sum3], [sum4] by [k], [k (k + 1) / 2], [k (k + 1) (k + 2) / 6] for its
    distance [k] to the end of the input, and [T], [U] are these weights
    at [n]. *)
Theorem write_closed_form (d : digest) (p : list byte) :
  (length p mod 4 = 0)%nat ->
  digest_ok d ->
  let ws := Spec.words p in
  let n := (length p / 4)%nat in
  length ws = n /\
  2 * Closed.tri n = Z.of_nat n * (Z.of_nat n + 1) /\
  6 * Closed.tet n = Z.of_nat n * (Z.of_nat n + 1) * (Z.of_nat n + 2) /\
  Write p d
  = Returns (length p, None)
      (Digest
         ((d0 d + Closed.sum1 ws) mod 2 ^ 64)
         ((d1 d + Z.of_nat n * d0 d + Closed.sum2 ws) mod 2 ^ 64)
         ((d2 d + Z.of_nat n * d1 d + Closed.tri n * d0 d + Closed.sum3 ws)
          mod 2 ^ 64)
         ((d3 d + Z.of_nat n * d2 d + Closed.tri n * d1 d
           + Closed.tet n * d0 d + Closed.sum4 ws) mod 2 ^ 64)).
Proof.
  intros Hp Hd ws n.
  assert (Hn : length ws = n).
  { apply words_length. unfold n.
    pose proof (Nat.div_mod_eq (length p) 4). lia. }
  split; [ exact Hn | ].
  split; [ apply tri_double | ].
  split; [ apply tet_sixfold | ].
  rewrite (Write_aligned d p Hp), (fletcher4_closed d _ Hd).
  fold ws. unfold Closed.closed, Closed.wrapd. cbn [d0 d1 d2 d3].
  rewrite Hn. reflexivity.
Qed.

Lemma write_closed_form_witness :
  Write inp1 (Digest 5 6 7 8)
  = Returns (8%nat, None)
      (Digest
         ((5 + Closed.sum1 (Spec.words inp1)) mod 2 ^ 64)
         ((6 + 2 * 5 + Closed.sum2 (Spec.words inp1)) mod 2 ^ 64)
         ((7 + 2 * 6 + 3 * 5 + Closed.sum3 (Spec.words inp1)) mod 2 ^ 64)
         ((8 + 2 * 7 + 3 * 6 + 4 * 5 + Closed.sum4 (Spec.words inp1))
          mod 2 ^ 64)).
Proof.
  refine (proj2 (proj2 (proj2
           (write_closed_form (Digest 5 6 7 8) inp1 eq_refl _)))).
  unfold digest_ok, U64.in_range, U64.modulus; simpl; lia.
Defined.

(** X3: on a fresh accumulator the first word does not wrap for inputs of
    up to 2^32 words: it is the plain sum of the words. *)
Theorem first_word_is_plain_sum (p : list byte) :
  (length p mod 4 = 0)%nat ->
  Z.of_nat (length p) <= 4 * 2 ^ 32 ->
  d0 (state_of (Write p New)) = Closed.sum1 (Spec.words p).
Proof.
  intros Hp Hlen.
  rewrite (Write_closed New p Hp New_ok).
  unfold Closed.wrapd, Closed.closed. cbn [d0].
  change (d0 New) with 0. rewrite Z.add_0_l.
  apply Z.mod_small.
  pose proof (sum1_bounds _ (words_range p)) as Hs.
  destruct (aligned_blocks p Hp) as [n Hn].
  rewrite (words_length n p Hn) in Hs.
  assert (Z.of_nat n <= 2 ^ 32) by lia.
  assert (HM : 2 ^ 64 = 2 ^ 32 * 2 ^ 32) by reflexivity.
  assert (0 < 2 ^ 32) by reflexivity.
  rewrite HM. nia.
Qed.

Lemma first_word_is_plain_sum_witness :
  d0 (state_of (Write inp1 New)) = Closed.sum1 (Spec.words inp1).
Proof.
  apply (first_word_is_plain_sum inp1).
  - reflexivity.
  - simpl. lia.
Defined.

(** X4: a change of one 4-byte word of the input, whatever comes before and
    after it, changes the first word of the checksum. *)
Theorem one_word_change_is_detected
  (d : digest) (pre blk blk' post : list byte) :
  digest_ok d ->
  (length pre mod 4 = 0)%nat ->
  (length post mod 4 = 0)%nat ->
  length blk = 4%nat -> length blk' = 4%nat ->
  blk <> blk' ->
  d0 (state_of (Write (pre ++ blk ++ post) d))
  <> d0 (state_of (Write (pre ++ blk' ++ post) d)).
Proof.
  intros Hd Hpre Hpost Hb Hb' Hne Heq.
  pose proof (block_aligned blk Hb) as Ab.
  pose proof (block_aligned blk' Hb') as Ab'.
  rewrite !Write_closed in Heq
    by (try exact Hd; repeat apply aligned_app; assumption).
  rewrite !words_app3 in Heq by assumption.
  rewrite (words_of_block blk Hb), (words_of_block blk' Hb') in Heq.
  unfold Closed.wrapd, Closed.closed in Heq. cbn [d0] in Heq.
  rewrite !sum1_app in Heq.
  unfold Closed.sum1 at 2 5 in Heq. cbn [fold_right] in Heq.
  rewrite !Z.add_0_r in Heq.
  set (P := Closed.sum1 (Spec.words pre)) in *.
  set (Q := Closed.sum1 (Spec.words post)) in *.
  replace (d0 d + (P + (Spec.le_value blk + Q)))
    with ((d0 d + P + Q) + Spec.le_value blk) in Heq by ring.
  replace (d0 d + (P + (Spec.le_value blk' + Q)))
    with ((d0 d + P + Q) + Spec.le_value blk') in Heq by ring.
  pose proof (block_value_range blk Hb).
  pose proof (block_value_range blk' Hb').
  apply mod_shift_inj in Heq; [ | lia | lia ].
  apply Hne, le_value_inj; [ congruence | exact Heq ].
Qed.

Lemma one_word_change_is_detected_witness :
  d0 (state_of (Write ([x01; x02; x03; x04] ++ [x05; x06; x07; x08] ++ inp2)
                      (Digest 0 0 0 0)))
  <> d0 (state_of (Write ([x01; x02; x03; x04] ++ [x05; x06; x07; x09] ++ inp2)
                         (Digest 0 0 0 0))).
Proof.
  apply (one_word_change_is_detected (Digest 0 0 0 0)
           [x01; x02; x03; x04] [x05; x06; x07; x08] [x05; x06; x07; x09] inp2).
  - unfold digest_ok, U64.in_range, U64.modulus; simpl; lia.
  - reflexivity.
  - reflexivity.
  - reflexivity.
  - reflexivity.
  - discriminate.
Defined.

(** X5: two different neighbouring words of the input exchanged, whatever
    comes before and after them, leave the first word of the checksum
    and change the second. *)
Theorem neighbour_swap_is_detected
  (d : digest) (pre blk1 blk2 post : list byte) :
  digest_ok d ->
  (length pre mod 4 = 0)%nat ->
  (length post mod 4 = 0)%nat ->
  length blk1 = 4%nat -> length blk2 = 4%nat ->
  blk1 <> blk2 ->
  d0 (state_of (Write (pre ++ (blk1 ++ blk2) ++ post) d))
  = d0 (state_of (Write (pre ++ (blk2 ++ blk1) ++ post) d)) /\
  d1 (state_of (Write (pre ++ (blk1 ++ blk2) ++ post) d))
  <> d1 (state_of (Write (pre ++ (blk2 ++ blk1) ++ post) d)).
Proof.
  intros Hd Hpre Hpost Hb1 Hb2 Hne.
  pose proof (block_aligned blk1 Hb1) as A1.
  pose proof (block_aligned blk2 Hb2) as A2.
  pose proof (aligned_app _ _ A1 A2) as A12.
  pose proof (aligned_app _ _ A2 A1) as A21.
  rewrite !Write_closed
    by (try exact Hd; repeat apply aligned_app; assumption).
  rewrite !words_app3 by assumption.
  rewrite (words_app blk1 blk2 A1), (words_app blk2 blk1 A2).
  rewrite (words_of_block blk1 Hb1), (words_of_block blk2 Hb2).
  cbn [app].
  pose proof (block_value_range blk1 Hb1) as R1.
  pose proof (block_value_range blk2 Hb2) as R2.
  set (w1 := Spec.le_value blk1) in *.
  set (w2 := Spec.le_value blk2) in *.
  unfold Closed.wrapd, Closed.closed. cbn [d0 d1].
  rewrite !sum1_app, !sum2_app, !length_app.
  cbn [length Closed.sum2]. unfold Closed.sum1. cbn [fold_right].
  set (P1 := fold_right Z.add 0 (Spec.words pre)).
  set (P2 := Closed.sum2 (Spec.words pre)).
  set (Q1 := fold_right Z.add 0 (Spec.words post)).
  set (Q2 := Closed.sum2 (Spec.words post)).
  set (m := length (Spec.words pre)).
  set (k := length (Spec.words post)).
  rewrite !Nat2Z.inj_succ.
  split.
  - f_equal. ring.
  - intros Heq.
    apply (mod_shift_inj_at
             (d1 d + Z.of_nat (m + S (S k)) * d0 d + P2
              + Z.succ (Z.succ (Z.of_nat k)) * P1
              + Z.succ (Z.of_nat k) * (w1 + w2) + Q2) w1 w2) in Heq;
      [ | lia | lia | ring | ring ].
    apply Hne, le_value_inj; [ congruence | exact Heq ].
Qed.

Lemma neighbour_swap_is_detected_witness :
  d0 (state_of (Write (inp2 ++ ([x01; x02; x03; x04] ++ [x05; x06; x07; x08])
                         ++ inp2) (Digest 1 2 3 4)))
  = d0 (state_of (Write (inp2 ++ ([x05; x06; x07; x08] ++ [x01; x02; x03; x04])
                           ++ inp2) (Digest 1 2 3 4))) /\
  d1 (state_of (Write (inp2 ++ ([x01; x02; x03; x04] ++ [x05; x06; x07; x08])
                         ++ inp2) (Digest 1 2 3 4)))
  <> d1 (state_of (Write (inp2 ++ ([x05; x06; x07; x08] ++ [x01; x02; x03; x04])
                            ++ inp2) (Digest 1 2 3 4))).
Proof.
  apply (neighbour_swap_is_detected (Digest 1 2 3 4)
           inp2 [x01; x02; x03; x04] [x05; x06; x07; x08] inp2).
  - unfold digest_ok, U64.in_range, U64.modulus; simpl; lia.
  - reflexivity.
  - reflexivity.
  - reflexivity.
  - reflexivity.
  - discriminate.
Defined.

(** X6: on a fresh accumulator, zero blocks at the head of the input go
    unnoticed: the input with [k] zero blocks before it leaves the state
    the input alone leaves, whether the write is accepted or refused. *)
Theorem leading_zero_blocks_unnoticed (k : nat) (q : list byte) :
  state_of (Write (repeat x00 (4 * k) ++ q) New) = state_of (Write q New).
Proof.
  rewrite (Nat.mul_comm 4 k).
  assert (Az : Spec.aligned (repeat x00 (k * 4)))
    by (apply (blocks_aligned _ k); rewrite repeat_length; lia).
  destruct (aligned_dec q) as [Hq | Hq].
  - rewrite (Write_aligned New _ (aligned_app _ _ Az Hq)).
    rewrite (Write_aligned New q Hq). cbn [state_of].
    rewrite (words_app _ q Az), fletcher4_app, words_zero_blocks.
    rewrite New_zero, fletcher4_zero_words. reflexivity.
  - rewrite (Write_misaligned New q Hq), Write_misaligned; [ reflexivity | ].
    unfold Spec.aligned in *. rewrite length_app, repeat_length.
    rewrite Nat.add_comm, Nat.Div0.mod_add. exact Hq.
Qed.

(** X7: the bytes [Sum] appends determine the state: two accumulators of
    [uint64] words for which [Sum] returns the same bytes on the same buffer
    hold the same four words. *)
Theorem sum_determines_state (d d' : digest) (inb out : list byte) :
  digest_ok d -> digest_ok d' ->
  Sum inb d = Returns out d ->
  Sum inb d' = Returns out d' ->
  d = d'.
Proof.
  intros (Ha & Hb & Hc & Hd) (Ha' & Hb' & Hc' & Hd') Hs Hs'.
  rewrite Sum_appends in Hs, Hs'.
  injection Hs as Hs. injection Hs' as Hs'. rewrite <- Hs' in Hs.
  apply app_inv_head in Hs. unfold digest_bytes in Hs.
  apply app_same_length in Hs; [ | reflexivity ]. destruct Hs as [E0 Hs].
  apply app_same_length in Hs; [ | reflexivity ]. destruct Hs as [E1 Hs].
  apply app_same_length in Hs; [ | reflexivity ]. destruct Hs as [E2 E3].
  apply (f_equal Spec.le_value) in E0, E1, E2, E3.
  rewrite !le_value_bytes64_in_range in E0, E1, E2, E3 by assumption.
  destruct d, d'. simpl in *. congruence.
Qed.

Lemma sum_determines_state_witness :
  Digest 1 2 3 4 = Digest 1 2 3 4.
Proof.
  apply (sum_determines_state (Digest 1 2 3 4) (Digest 1 2 3 4) [x2a]
           ([x2a] ++ digest_bytes (Digest 1 2 3 4))).
  - unfold digest_ok, U64.in_range, U64.modulus; simpl; lia.
  - unfold digest_ok, U64.in_range, U64.modulus; simpl; lia.
  - vm_compute. reflexivity.
  - vm_compute. reflexivity.
Defined.

(** X8: the digest of one block. After one 4-byte block on a fresh
    accumulator, [Sum] appends the block followed by four zero bytes, four
    times over. *)
Theorem single_block_digest_bytes (b0 b1 b2 b3 : byte) (inb : list byte) :
  (Write [b0; b1; b2; b3] ;;; Sum inb) New
  = Returns (inb ++ [b0; b1; b2; b3; x00; x00; x00; x00]
                 ++ [b0; b1; b2; b3; x00; x00; x00; x00]
                 ++ [b0; b1; b2; b3; x00; x00; x00; x00]
                 ++ [b0; b1; b2; b3; x00; x00; x00; x00])
            (state_of (Write [b0; b1; b2; b3] New)).
Proof.
  unfold bind at 1.
  rewrite (Write_aligned New [b0; b1; b2; b3]) by reflexivity.
  cbn [state_of]. rewrite Sum_appends.
  assert (Hst : Spec.fletcher4 New (Spec.words [b0; b1; b2; b3])
                = Digest (Spec.le_value [b0; b1; b2; b3])
                         (Spec.le_value [b0; b1; b2; b3])
                         (Spec.le_value [b0; b1; b2; b3])
                         (Spec.le_value [b0; b1; b2; b3])).
  { pose proof (le_value_word_range b0 b1 b2 b3) as Hv.
    unfold Spec.words, Spec.fletcher4. cbn [Spec.blocks map fold_left].
    set (V := Spec.le_value [b0; b1; b2; b3]) in *.
    unfold Spec.cascade, New, Reset, store, state_of. cbn [d0 d1 d2 d3].
    rewrite !Z.add_0_l, !(Z.mod_small V (2 ^ 64)) by lia. reflexivity. }
  rewrite Hst.
  assert (Hb : LittleEndian.bytes64 (Spec.le_value [b0; b1; b2; b3])
               = [b0; b1; b2; b3; x00; x00; x00; x00]).
  { apply le_value_inj; [ reflexivity | ].
    rewrite le_value_bytes64_in_range.
    - unfold Spec.le_value. cbn [fold_right]. change (Z_of_byte x00) with 0.
      lia.
    - pose proof (le_value_word_range b0 b1 b2 b3) as Hv.
      unfold U64.in_range, U64.modulus. lia. }
  unfold digest_bytes. cbn [d0 d1 d2 d3]. rewrite Hb. reflexivity.
Qed.

(** X9: a zero block written to an accumulator of [uint64] words leaves
    the state as it is exactly when its first three words are zero; in
    every other state a trailing zero block changes the checksum. *)
Theorem zero_block_changes_state (d : digest) :
  digest_ok d ->
  (state_of (Write [x00; x00; x00; x00] d) = d
   <-> d0 d = 0 /\ d1 d = 0 /\ d2 d = 0).
Proof.
  intros (Ha & Hb & Hc & Hd).
  unfold U64.in_range, U64.modulus in *.
  rewrite (Write_aligned d [x00; x00; x00; x00]) by reflexivity.
  cbn [state_of].
  change (Spec.fletcher4 d (Spec.words [x00; x00; x00; x00]))
    with (Spec.cascade d 0).
  destruct d as [a b c e]. unfold Spec.cascade. cbn [d0 d1 d2 d3] in *.
  rewrite Z.add_0_r, (Z.mod_small a) by lia.
  split.
  - intros Heq. injection Heq as Eb Ec Ee.
    assert (Ea0 : a = 0).
    { apply (mod_shift_inj_at b a 0 _ _ Ha ltac:(lia) eq_refl eq_refl).
      rewrite Z.add_0_r, (Z.mod_small b) by lia. exact Eb. }
    subst a. rewrite Z.add_0_r, (Z.mod_small b) in Ec, Ee by lia.
    assert (Eb0 : b = 0).
    { apply (mod_shift_inj_at c b 0 _ _ Hb ltac:(lia) eq_refl eq_refl).
      rewrite Z.add_0_r, (Z.mod_small c) by lia. exact Ec. }
    subst b. rewrite Z.add_0_r, (Z.mod_small c) in Ee by lia.
    assert (Ec0 : c = 0).
    { apply (mod_shift_inj_at e c 0 _ _ Hc ltac:(lia) eq_refl eq_refl).
      rewrite Z.add_0_r, (Z.mod_small e) by lia. exact Ee. }
    auto.
  - intros (-> & -> & ->).
    change ((0 + 0) mod 2 ^ 64) with 0.
    change ((0 + 0) mod 2 ^ 64) with 0.
    rewrite Z.add_0_r, (Z.mod_small e) by lia.
    reflexivity.
Qed.

Lemma zero_block_changes_state_witness :
  state_of (Write [x00; x00; x00; x00] (Digest 0 0 0 9)) = Digest 0 0 0 9
  <-> 0 = 0 /\ 0 = 0 /\ 0 = 0.
Proof.
  apply (zero_block_changes_state (Digest 0 0 0 9)).
  unfold digest_ok, U64.in_range, U64.modulus; simpl; lia.
Defined.

(** X10: the digest is itself an accepted input: the 32 bytes [Sum] returns
    on an empty buffer, written back to the accumulator they come from or
    to any other, are taken without a panic, with count 32 and a nil
    error. *)
Theorem digest_is_accepted_input (d e : digest) :
  exists (dg : list byte) (e' : digest),
    Sum [] d = Returns dg d /\
    Write dg e = Returns (Size, None) e'.
Proof.
  exists (digest_bytes d), (Spec.fletcher4 e (Spec.words (digest_bytes d))).
  split.
  - exact (Sum_appends d []).
  - exact (Write_aligned e (digest_bytes d) eq_refl).
Qed.

(** X11: which inputs collide. Two inputs of one aligned length, written to
    one state of [uint64] words, leave the same state exactly when the sum
    of their words and their three weighted sums agree modulo 2^64. *)
Theorem collision_iff_weighted_sums_agree (d : digest) (p q : list byte) :
  digest_ok d ->
  (length p mod 4 = 0)%nat ->
  length p = length q ->
  (state_of (Write p d) = state_of (Write q d)
   <-> Closed.sum1 (Spec.words p) mod 2 ^ 64
       = Closed.sum1 (Spec.words q) mod 2 ^ 64 /\
       Closed.sum2 (Spec.words p) mod 2 ^ 64
       = Closed.sum2 (Spec.words q) mod 2 ^ 64 /\
       Closed.sum3 (Spec.words p) mod 2 ^ 64
       = Closed.sum3 (Spec.words q) mod 2 ^ 64 /\
       Closed.sum4 (Spec.words p) mod 2 ^ 64
       = Closed.sum4 (Spec.words q) mod 2 ^ 64).
Proof.
  intros Hd Hp Hlen.
  assert (Hq : Spec.aligned q) by (unfold Spec.aligned; rewrite <- Hlen; exact Hp).
  destruct (aligned_blocks p Hp) as [n Hn].
  assert (Hwp : length (Spec.words p) = n) by (apply words_length, Hn).
  assert (Hwq : length (Spec.words q) = n)
    by (apply words_length; rewrite <- Hlen; exact Hn).
  rewrite (Write_closed d p Hp Hd), (Write_closed d q Hq Hd).
  unfold Closed.wrapd, Closed.closed. cbn [d0 d1 d2 d3].
  rewrite Hwp, Hwq.
  split.
  - intros Heq. injection Heq as E1 E2 E3 E4.
    apply mod_add_cancel in E1, E2, E3, E4. auto.
  - intros (E1 & E2 & E3 & E4).
    f_equal; apply mod_add_cancel; assumption.
Qed.

Lemma collision_iff_weighted_sums_agree_witness :
  state_of (Write pattern_a (Digest 1 2 3 4))
  = state_of (Write pattern_b (Digest 1 2 3 4)).
Proof.
  apply (collision_iff_weighted_sums_agree (Digest 1 2 3 4) pattern_a pattern_b).
  - unfold digest_ok, U64.in_range, U64.modulus; simpl; lia.
  - reflexivity.
  - reflexivity.
  - vm_compute. repeat split.
Defined.

(** X12: the checksum has collisions at a fixed length. The five words
    [1, 0, 6, 0, 1] replaced by [0, 4, 0, 4, 0], whatever comes before and
    after them and from whatever state of [uint64] words, leave the state
    the same, though the inputs differ. *)
Theorem fourth_difference_goes_unnoticed
  (d : digest) (pre post : list byte) :
  digest_ok d ->
  (length pre mod 4 = 0)%nat ->
  (length post mod 4 = 0)%nat ->
  pre ++ pattern_a ++ post <> pre ++ pattern_b ++ post /\
  Write (pre ++ pattern_a ++ post) d = Write (pre ++ pattern_b ++ post) d.
Proof.
  intros Hd Hpre Hpost.
  split.
  - intros Heq. apply app_inv_head in Heq. discriminate.
  - assert (Aa : Spec.aligned pattern_a) by reflexivity.
    assert (Ab : Spec.aligned pattern_b) by reflexivity.
    rewrite !Write_aligned by (repeat apply aligned_app; assumption).
    rewrite !length_app. change (length pattern_b) with (length pattern_a).
    f_equal.
    rewrite !words_app3, !fletcher4_app by assumption.
    f_equal.
    pose proof (fletcher4_ok (Spec.words pre) d Hd) as Hst.
    rewrite (fletcher4_closed _ (Spec.words pattern_a) Hst).
    rewrite (fletcher4_closed _ (Spec.words pattern_b) Hst).
    change (Spec.words pattern_a) with [1; 0; 6; 0; 1].
    change (Spec.words pattern_b) with [0; 4; 0; 4; 0].
    reflexivity.
Qed.

Lemma fourth_difference_goes_unnoticed_witness :
  inp1 ++ pattern_a ++ inp2 <> inp1 ++ pattern_b ++ inp2 /\
  Write (inp1 ++ pattern_a ++ inp2) (Digest 1 2 3 4)
  = Write (inp1 ++ pattern_b ++ inp2) (Digest 1 2 3 4).
Proof.
  apply (fourth_difference_goes_unnoticed (Digest 1 2 3 4) inp1 inp2).
  - unfold digest_ok, U64.in_range, U64.modulus; simpl; lia.
  - reflexivity.
  - reflexivity.
Defined.

End Further.
